(** * The tauri-driver supervisor of [tests/e2e/wdio.conf.ts]

    The WebdriverIO configuration starts the native WebDriver binary in
    [onPrepare] and stops it in [onComplete].  This development embeds the
    two hooks, the four callbacks [onPrepare] registers and the small part
    of the JavaScript runtime they rest on (promise settlement, event
    emitters, one-shot timers, [String.prototype.includes]) and checks the
    supervisor's specification against them. *)

From Stdlib Require Import ZArith String Ascii Bool Lia.
From stdpp Require Import base list.

Local Open Scope Z_scope.

(** ** The JavaScript runtime the configuration uses *)

Module Js.

(** [s.startsWith(m)]. *)
Fixpoint startsWith (s m : string) : bool :=
  match m, s with
  | EmptyString, _ => true
  | String _ _, EmptyString => false
  | String c m', String d s' => Ascii.eqb c d && startsWith s' m'
  end.

(** [s.includes(m)]: [m] occurs in [s] at some position. *)
Fixpoint includes (s m : string) : bool :=
  startsWith s m ||
  match s with
  | EmptyString => false
  | String _ s' => includes s' m
  end.

(** A chunk delivered by a stream's ['data'] event.  The bytes are kept as
    a byte string; [toString] is the decoding, which leaves every ASCII
    byte in place. *)
Definition Buffer := string.
Bind Scope string_scope with Buffer.
Definition toString (data : Buffer) : string := data.

(** An [Error] object: the message and, for errors raised by the system
    (a failed [spawn]), the error code. *)
Record Error := mkError { message : string; code : option string }.

(** [new Error(msg)]. *)
Definition newError (msg : string) : Error := mkError msg None.

(** The state of a promise. *)
Inductive PromiseState :=
| Pending
| Fulfilled
| Rejected (reason : Error).

(** [resolve()] and [reject(e)] settle a pending promise and do nothing
    to a settled one. *)
Definition settle (outcome st : PromiseState) : PromiseState :=
  match st with
  | Pending => outcome
  | _ => st
  end.

Definition settled (st : PromiseState) : bool :=
  match st with
  | Pending => false
  | _ => true
  end.

(** What a statement or a call completes with. *)
Inductive Completion (A : Type) :=
| Normal (a : A)
| Throw (e : Error).
Arguments Normal {A} a.
Arguments Throw {A} e.

(** Arguments printed by [console.log] and [console.error]. *)
Inductive Value :=
| VString (s : string)
| VError (e : Error).

Inductive LogEntry :=
| ConsoleLog (args : list Value)
| ConsoleError (args : list Value).

End Js.

Import Js.

(** ** The state the hooks act on *)

(** Child processes and promises are named by their creation index. *)
Abbreviation pid := nat (only parsing).
Abbreviation promise_id := nat (only parsing).

(** The closures [onPrepare] creates, each with the [resolve] or [reject]
    it captured (lines 68-74, 76-78, 80-83 and 86-88). *)
Inductive DataListener :=
| StdoutListener (resolve : promise_id)
| StderrListener.

Inductive ErrorListener :=
| FailedToStart (reject : promise_id).

Inductive TimerCallback :=
| StartupTimeout (reject : promise_id).

(** A [ChildProcess] object: the listeners attached to it and to its two
    output streams, in the order [on] added them, and the [kill()] requests
    it received. *)
Record ChildProcess := mkChild {
  stdout_data : list DataListener;
  stderr_data : list DataListener;
  on_error : list ErrorListener;
  kills : nat
}.

(** A timer armed by [setTimeout] that has not fired yet. *)
Record Timer := mkTimer { due : Z; callback : TimerCallback }.

Record World := mkWorld {
  tauriDriver : option pid;          (* line 18: let tauriDriver = null *)
  processes : list ChildProcess;     (* every child spawned so far *)
  promises : list PromiseState;
  timers : list Timer;               (* armed, not yet fired *)
  console : list LogEntry            (* oldest entry first *)
}.

Definition init : World := mkWorld None [] [] [] [].

Definition set_tauriDriver (h : option pid) (w : World) : World :=
  mkWorld h (processes w) (promises w) (timers w) (console w).
Definition set_processes (ps : list ChildProcess) (w : World) : World :=
  mkWorld (tauriDriver w) ps (promises w) (timers w) (console w).
Definition set_promises (ps : list PromiseState) (w : World) : World :=
  mkWorld (tauriDriver w) (processes w) ps (timers w) (console w).
Definition set_timers (ts : list Timer) (w : World) : World :=
  mkWorld (tauriDriver w) (processes w) (promises w) ts (console w).
Definition set_console (c : list LogEntry) (w : World) : World :=
  mkWorld (tauriDriver w) (processes w) (promises w) (timers w) c.

(** Runtime operations on the world. *)

Definition resolve (r : promise_id) (w : World) : World :=
  set_promises (alter (settle Fulfilled) r (promises w)) w.

Definition reject (r : promise_id) (e : Error) (w : World) : World :=
  set_promises (alter (settle (Rejected e)) r (promises w)) w.

Definition console_log (args : list Value) (w : World) : World :=
  set_console (console w ++ [ConsoleLog args]) w.

Definition console_error (args : list Value) (w : World) : World :=
  set_console (console w ++ [ConsoleError args]) w.

(** [new Promise(...)]: a fresh pending promise. *)
Definition newPromise (w : World) : promise_id * World :=
  (length (promises w), set_promises (promises w ++ [Pending]) w).

(** [spawn('tauri-driver', [], { stdio: ['ignore', 'pipe', 'pipe'] })]: a
    fresh child with both output streams piped and no listener yet.  A
    binary that cannot be executed is reported later, by an ['error']
    event. *)
Definition spawn (w : World) : pid * World :=
  (length (processes w), set_processes (processes w ++ [mkChild [] [] [] 0%nat]) w).

Definition on_stdout_data (p : pid) (l : DataListener) (w : World) : World :=
  set_processes
    (alter (fun c => mkChild (stdout_data c ++ [l]) (stderr_data c) (on_error c) (kills c))
       p (processes w)) w.

Definition on_stderr_data (p : pid) (l : DataListener) (w : World) : World :=
  set_processes
    (alter (fun c => mkChild (stdout_data c) (stderr_data c ++ [l]) (on_error c) (kills c))
       p (processes w)) w.

Definition on_process_error (p : pid) (l : ErrorListener) (w : World) : World :=
  set_processes
    (alter (fun c => mkChild (stdout_data c) (stderr_data c) (on_error c ++ [l]) (kills c))
       p (processes w)) w.

Definition setTimeout (cb : TimerCallback) (delay now : Z) (w : World) : World :=
  set_timers (timers w ++ [mkTimer (now + delay) cb]) w.

(** [handle.kill()]: a method call on [null] throws; on a child it sends
    the default signal and returns a boolean, also when the child is
    already dead. *)
Definition kill (handle : option pid) (w : World) : Completion World :=
  match handle with
  | None =>
      Throw (newError "Cannot read properties of null (reading 'kill')")
  | Some p =>
      Normal (set_processes
                (alter (fun c => mkChild (stdout_data c) (stderr_data c) (on_error c)
                                   (S (kills c)))
                   p (processes w)) w)
  end.

(** ** The configuration's callbacks *)

Definition marker : string := "Listening on".
Definition startup_timeout : Z := 30000.
Definition timeout_error : Error := newError "tauri-driver startup timeout".

(** Lines 68-78: the two ['data'] listeners. *)
Definition call_data (l : DataListener) (data : Buffer) (w : World) : World :=
  match l with
  | StdoutListener r =>
      let output := toString data in
      if includes output marker
      then resolve r (console_log [VString "[tauri-driver] Started"] w)
      else w
  | StderrListener =>
      console_error [VString "[tauri-driver]"; VString (toString data)] w
  end.

(** Lines 80-83: the ['error'] listener. *)
Definition call_error (l : ErrorListener) (err : Error) (w : World) : World :=
  match l with
  | FailedToStart r =>
      reject r err
        (console_error [VString "[tauri-driver] Failed to start:"; VError err] w)
  end.

(** Lines 86-88: the timer callback. *)
Definition call_timer (cb : TimerCallback) (w : World) : World :=
  match cb with
  | StartupTimeout r => reject r timeout_error w
  end.

(** Lines 62-90.  The executor of the promise runs at once, inside the
    call; the promise an [async] function returns follows the one the body
    returns, so the two are one promise here.  [now] is the clock at the
    call, in milliseconds. *)
Definition onPrepare (now : Z) (w : World) : promise_id * World :=
  let '(r, w) := newPromise w in
  let '(p, w) := spawn w in
  let w := set_tauriDriver (Some p) w in
  let w := on_stdout_data p (StdoutListener r) w in
  let w := on_stderr_data p StderrListener w in
  let w := on_process_error p (FailedToStart r) w in
  let w := setTimeout (StartupTimeout r) startup_timeout now w in
  (r, w).

(** Lines 93-98. *)
Definition onComplete (w : World) : Completion World :=
  match tauriDriver w with
  | Some _ =>
      match kill (tauriDriver w) w with
      | Normal w' => Normal (set_tauriDriver None w')
      | Throw e => Throw e
      end
  | None => Normal w
  end.

(** ** The event loop *)

(** What the event loop can run: a call of a hook by the test runner, an
    event of a child process, or the timers phase at clock [now].  The
    ['exit'] event is listed because the process can emit it; the
    configuration attaches no listener for it. *)
Inductive Action :=
| CallOnPrepare (now : Z)
| CallOnComplete
| StdoutData (p : pid) (data : Buffer)
| StderrData (p : pid) (data : Buffer)
| ProcessError (p : pid) (err : Error)
| ProcessExit (p : pid) (exit_code : Z)
| TimersPhase (now : Z).

Definition child (p : pid) (w : World) : ChildProcess :=
  default (mkChild [] [] [] 0%nat) (processes w !! p).

(** [emit]: every listener of the event runs, in registration order. *)
Definition emit_data (ls : list DataListener) (data : Buffer) (w : World) : World :=
  fold_left (fun w l => call_data l data w) ls w.

Definition emit_error (ls : list ErrorListener) (err : Error) (w : World) : World :=
  fold_left (fun w l => call_error l err w) ls w.

Definition is_due (now : Z) (t : Timer) : bool := due t <=? now.

(** The timers phase runs the callback of every armed timer whose time has
    come and disarms it: a timer fires once. *)
Definition run_timers (now : Z) (w : World) : World :=
  fold_left (fun w t => call_timer (callback t) w)
    (List.filter (is_due now) (timers w))
    (set_timers (List.filter (fun t => negb (is_due now t)) (timers w)) w).

Definition step (w : World) (a : Action) : World :=
  match a with
  | CallOnPrepare now => snd (onPrepare now w)
  | CallOnComplete =>
      match onComplete w with
      | Normal w' => w'
      | Throw _ => w
      end
  | StdoutData p data => emit_data (stdout_data (child p w)) data w
  | StderrData p data => emit_data (stderr_data (child p w)) data w
  | ProcessError p err => emit_error (on_error (child p w)) err w
  | ProcessExit _ _ => w
  | TimersPhase now => run_timers now w
  end.

Definition run (w : World) (tr : list Action) : World := fold_left step tr w.

(** The state of a promise; a promise that does not exist is reported
    pending. *)
Definition outcome (r : promise_id) (w : World) : PromiseState :=
  default Pending (promises w !! r).

(** ** Reading a schedule *)

(** The three events that can settle the promise of the [onPrepare] call
    made at clock [t0] for child [p]. *)
Definition is_marker_chunk (p : pid) (a : Action) : bool :=
  match a with
  | StdoutData q data => (q =? p)%nat && includes (toString data) marker
  | _ => false
  end.

Definition is_error_of (p : pid) (a : Action) : bool :=
  match a with
  | ProcessError q _ => (q =? p)%nat
  | _ => false
  end.

Definition fires_timer (t0 : Z) (a : Action) : bool :=
  match a with
  | TimersPhase now => t0 + startup_timeout <=? now
  | _ => false
  end.

Definition is_stderr (a : Action) : bool :=
  match a with
  | StderrData _ _ => true
  | _ => false
  end.

Definition is_hook_call (a : Action) : bool :=
  match a with
  | CallOnPrepare _ | CallOnComplete => true
  | _ => false
  end.

Definition decides (p : pid) (t0 : Z) (a : Action) : bool :=
  is_marker_chunk p a || is_error_of p a || fires_timer t0 a.

(** What one event makes of a pending race, and what a schedule does: the
    first event with a verdict wins. *)
Definition verdict (p : pid) (t0 : Z) (a : Action) : option PromiseState :=
  match a with
  | StdoutData q data =>
      if (q =? p)%nat && includes (toString data) marker then Some Fulfilled else None
  | ProcessError q err => if (q =? p)%nat then Some (Rejected err) else None
  | TimersPhase now =>
      if t0 + startup_timeout <=? now then Some (Rejected timeout_error) else None
  | _ => None
  end.

Fixpoint first_verdict (p : pid) (t0 : Z) (tr : list Action) : PromiseState :=
  match tr with
  | [] => Pending
  | a :: tr' =>
      match verdict p t0 a with
      | Some st => st
      | None => first_verdict p t0 tr'
      end
  end.



(** The events that can reach the callbacks wired to child [p]'s promise:
    its own standard-output chunks and ['error'] events, and the timers
    phases. *)
Definition concerns (p : pid) (a : Action) : bool :=
  match a with
  | StdoutData q _ => (q =? p)%nat
  | ProcessError q _ => (q =? p)%nat
  | TimersPhase _ => true
  | _ => false
  end.

(** The world without its console. *)
Definition mute (w : World) : World := set_console [] w.

(** ** Invariant of the worlds the hooks build *)

(** The [n]-th call of [onPrepare] creates the [n]-th child and the [n]-th
    promise together, and wires the child's listeners to that promise. *)
Definition wired (q : nat) (c : ChildProcess) : Prop :=
  stdout_data c = [StdoutListener q] /\
  stderr_data c = [StderrListener] /\
  on_error c = [FailedToStart q].

Record wf (w : World) : Prop := mkWf {
  wf_len : length (processes w) = length (promises w);
  wf_wired : forall q c, processes w !! q = Some c -> wired q c;
  wf_timers : forall t r, t ∈ timers w -> callback t = StartupTimeout r ->
                          (r < length (promises w))%nat;
  wf_handle : forall p, tauriDriver w = Some p -> (p < length (processes w))%nat
}.

(** The timer of promise [r], due at [d]: no other timer rejects [r], and
    it is armed for as long as [r] is pending. *)
Record armed (r : promise_id) (d : Z) (w : World) : Prop := mkArmed {
  armed_lt : (r < length (promises w))%nat;
  armed_due : forall t, t ∈ timers w -> callback t = StartupTimeout r -> due t = d;
  armed_in : outcome r w = Pending -> mkTimer d (StartupTimeout r) ∈ timers w
}.

Definition timer_target (t : Timer) : promise_id :=
  match callback t with
  | StartupTimeout r => r
  end.

(** The promises after the callbacks of the timers [ts] have run. *)
Definition reject_all (ts : list Timer) (ps : list PromiseState) : list PromiseState :=
  fold_left (fun ps t => alter (settle (Rejected timeout_error)) (timer_target t) ps) ts ps.

(** ** Strings *)

Lemma startsWith_spec (s m : string) :
  startsWith s m = true <-> exists rest, s = String.append m rest.
Proof.
  revert s. induction m as [|c m IH]; intros s; simpl.
  - split; [intros _; exists s; reflexivity | intros _; destruct s; reflexivity].
  - destruct s as [|d s].
    + split; [discriminate | intros [rest H]; discriminate].
    + simpl. rewrite andb_true_iff, Ascii.eqb_eq, IH. split.
      * intros [-> [rest ->]]. exists rest. reflexivity.
      * intros [rest H]. injection H as -> ->. split; [reflexivity | eauto].
Qed.

Lemma includes_spec (s m : string) :
  includes s m = true <->
  exists before rest, s = String.append before (String.append m rest).
Proof.
  induction s as [|d s IH]; cbn [includes].
  - rewrite orb_false_r, startsWith_spec. split.
    + intros [rest H]. exists EmptyString, rest. exact H.
    + intros [before [rest H]]. destruct before; simpl in H; [eauto | discriminate].
  - rewrite orb_true_iff, IH, startsWith_spec. split.
    + intros [[rest H] | [before [rest H]]].
      * exists EmptyString, rest. exact H.
      * exists (String d before), rest. simpl. rewrite H. reflexivity.
    + intros [before [rest H]]. destruct before as [|b before]; simpl in H.
      * left. eauto.
      * right. injection H as -> ->. eauto.
Qed.

(** ** Promises *)

Lemma settle_settled (o st : PromiseState) :
  settled st = true -> settle o st = st.
Proof. destruct st; simpl; [discriminate | reflexivity | reflexivity]. Qed.

Lemma settle_idem (o st : PromiseState) : settle o (settle o st) = settle o st.
Proof. destruct st; simpl; [destruct o | |]; reflexivity. Qed.

Lemma outcome_alter_eq (f : PromiseState -> PromiseState) (r : promise_id) (w : World) :
  (r < length (promises w))%nat ->
  outcome r (set_promises (alter f r (promises w)) w) = f (outcome r w).
Proof.
  intros Hr. unfold outcome. cbn [promises set_promises].
  rewrite list_lookup_alter_eq.
  destruct (promises w !! r) as [st|] eqn:Hst; [reflexivity|].
  apply lookup_ge_None in Hst. lia.
Qed.

Lemma outcome_alter_ne (f : PromiseState -> PromiseState) (r' r : promise_id) (w : World) :
  r' <> r ->
  outcome r (set_promises (alter f r' (promises w)) w) = outcome r w.
Proof.
  intros Hr. unfold outcome. cbn [promises set_promises].
  rewrite list_lookup_alter_ne by exact Hr. reflexivity.
Qed.

Lemma outcome_settle_stable (o : PromiseState) (r' r : promise_id) (w : World) :
  settled (outcome r w) = true ->
  outcome r (set_promises (alter (settle o) r' (promises w)) w) = outcome r w.
Proof.
  intros Hs. unfold outcome in *. cbn [promises set_promises].
  rewrite list_lookup_alter.
  case_decide; [subst r' | reflexivity].
  destruct (promises w !! r) as [st|]; simpl in *; [|discriminate].
  apply settle_settled, Hs.
Qed.

(** ** The steps in closed form *)

Lemma alter_last {A} (f : A -> A) (l : list A) (x : A) :
  alter f (length l) (l ++ [x]) = l ++ [f x].
Proof.
  replace (length l) with (length l + 0)%nat by lia.
  rewrite alter_app_r. reflexivity.
Qed.

Lemma onPrepare_eq (now : Z) (w : World) :
  onPrepare now w =
  (length (promises w),
   mkWorld (Some (length (processes w)))
     (processes w ++
        [mkChild [StdoutListener (length (promises w))] [StderrListener]
           [FailedToStart (length (promises w))] 0%nat])
     (promises w ++ [Pending])
     (timers w ++ [mkTimer (now + startup_timeout) (StartupTimeout (length (promises w)))])
     (console w)).
Proof.
  unfold onPrepare, newPromise, spawn, on_stdout_data, on_stderr_data,
    on_process_error, setTimeout, set_processes, set_promises, set_timers,
    set_tauriDriver.
  cbn [tauriDriver processes promises timers console].
  rewrite !alter_last. reflexivity.
Qed.

Lemma onComplete_eq (w : World) :
  onComplete w =
  Normal
    match tauriDriver w with
    | Some p =>
        mkWorld None
          (alter (fun c => mkChild (stdout_data c) (stderr_data c) (on_error c) (S (kills c)))
             p (processes w))
          (promises w) (timers w) (console w)
    | None => w
    end.
Proof. unfold onComplete. destruct (tauriDriver w); reflexivity. Qed.

Lemma child_wired (w : World) (p : pid) :
  wf w -> (p < length (processes w))%nat -> wired p (child p w).
Proof.
  intros Hwf Hp. unfold child.
  destruct (processes w !! p) as [c|] eqn:Hc.
  - exact (wf_wired w Hwf p c Hc).
  - apply lookup_ge_None in Hc. lia.
Qed.

Lemma child_absent (w : World) (p : pid) :
  (length (processes w) <= p)%nat -> child p w = mkChild [] [] [] 0%nat.
Proof.
  intros Hp. unfold child. rewrite (proj2 (lookup_ge_None _ _) Hp). reflexivity.
Qed.

Lemma step_stdout (w : World) (p : pid) (data : Buffer) :
  wf w ->
  step w (StdoutData p data) =
  if decide (p < length (processes w))%nat
  then call_data (StdoutListener p) data w
  else w.
Proof.
  intros Hwf. cbn [step]. case_decide as Hp.
  - destruct (child_wired w p Hwf Hp) as (-> & _ & _). reflexivity.
  - rewrite child_absent by lia. reflexivity.
Qed.

Lemma step_stderr (w : World) (p : pid) (data : Buffer) :
  wf w ->
  step w (StderrData p data) =
  if decide (p < length (processes w))%nat
  then console_error [VString "[tauri-driver]"; VString (toString data)] w
  else w.
Proof.
  intros Hwf. cbn [step]. case_decide as Hp.
  - destruct (child_wired w p Hwf Hp) as (_ & -> & _). reflexivity.
  - rewrite child_absent by lia. reflexivity.
Qed.

Lemma step_error (w : World) (p : pid) (err : Error) :
  wf w ->
  step w (ProcessError p err) =
  if decide (p < length (processes w))%nat
  then call_error (FailedToStart p) err w
  else w.
Proof.
  intros Hwf. cbn [step]. case_decide as Hp.
  - destruct (child_wired w p Hwf Hp) as (_ & _ & ->). reflexivity.
  - rewrite child_absent by lia. reflexivity.
Qed.

Lemma fold_call_timer (ts : list Timer) (w : World) :
  fold_left (fun w t => call_timer (callback t) w) ts w =
  set_promises (reject_all ts (promises w)) w.
Proof.
  revert w. induction ts as [|t ts IH]; intros w.
  - destruct w; reflexivity.
  - cbn [fold_left]. rewrite IH. unfold reject_all. cbn [fold_left].
    unfold call_timer, timer_target. destruct (callback t) as [r].
    destruct w; reflexivity.
Qed.

Lemma run_timers_eq (now : Z) (w : World) :
  run_timers now w =
  mkWorld (tauriDriver w) (processes w)
    (reject_all (List.filter (is_due now) (timers w)) (promises w))
    (List.filter (fun t => negb (is_due now t)) (timers w))
    (console w).
Proof. unfold run_timers. rewrite fold_call_timer. reflexivity. Qed.

Lemma length_reject_all (ts : list Timer) (ps : list PromiseState) :
  length (reject_all ts ps) = length ps.
Proof.
  revert ps. induction ts as [|t ts IH]; intros ps; [reflexivity|].
  unfold reject_all in *. cbn [fold_left]. rewrite IH. apply length_alter.
Qed.

Lemma lookup_reject_all (ts : list Timer) (ps : list PromiseState) (r : promise_id) :
  reject_all ts ps !! r =
  (if existsb (fun t => (timer_target t =? r)%nat) ts
   then settle (Rejected timeout_error) <$> ps !! r
   else ps !! r).
Proof.
  revert ps. induction ts as [|t ts IH]; intros ps; [reflexivity|].
  unfold reject_all in *. cbn [fold_left existsb]. rewrite IH.
  rewrite list_lookup_alter.
  destruct (Nat.eqb_spec (timer_target t) r) as [Heq|Hne]; cbn [orb].
  - rewrite decide_True by exact Heq. subst r.
    destruct (existsb _ ts); [|reflexivity].
    destruct (ps !! timer_target t) as [st|]; [|reflexivity].
    cbn. rewrite settle_idem. reflexivity.
  - rewrite decide_False by exact Hne. reflexivity.
Qed.

(** ** The invariant holds in every reachable world *)

Lemma wf_init : wf init.
Proof.
  split; cbn.
  - reflexivity.
  - intros q c H. rewrite lookup_nil in H. discriminate.
  - intros t r H. apply elem_of_nil in H. contradiction.
  - intros p H. discriminate.
Qed.

Lemma wf_promises (w : World) (ps : list PromiseState) :
  length ps = length (promises w) -> wf w -> wf (set_promises ps w).
Proof.
  intros Hlen [H1 H2 H3 H4]. split; cbn [set_promises tauriDriver processes promises timers].
  - congruence.
  - exact H2.
  - intros t r Ht Hcb. rewrite Hlen. eauto.
  - exact H4.
Qed.

Lemma wf_console (w : World) (c : list LogEntry) : wf w -> wf (set_console c w).
Proof. intros [H1 H2 H3 H4]. split; assumption. Qed.

Lemma wf_call_data (l : DataListener) (data : Buffer) (w : World) :
  wf w -> wf (call_data l data w).
Proof.
  intros Hwf. destruct l as [r|]; cbn [call_data].
  - destruct (includes _ _); [|exact Hwf].
    apply wf_promises; [apply length_alter|]. apply wf_console, Hwf.
  - apply wf_console, Hwf.
Qed.

Lemma wf_call_error (l : ErrorListener) (err : Error) (w : World) :
  wf w -> wf (call_error l err w).
Proof.
  intros Hwf. destruct l as [r]; cbn [call_error].
  apply wf_promises; [apply length_alter|]. apply wf_console, Hwf.
Qed.

Lemma wf_onPrepare (now : Z) (w : World) : wf w -> wf (snd (onPrepare now w)).
Proof.
  intros [H1 H2 H3 H4]. rewrite onPrepare_eq. cbn [snd].
  split; cbn [tauriDriver processes promises timers].
  - rewrite !length_app. cbn. lia.
  - intros q c Hq. apply lookup_app_Some in Hq as [Hq | [Hge Hq]]; [eauto|].
    destruct (q - length (processes w))%nat as [|n] eqn:Hn; cbn in Hq; [|discriminate].
    injection Hq as <-. assert (q = length (promises w)) as -> by lia.
    repeat split.
  - intros t r Ht Hcb. rewrite length_app. cbn [length].
    apply elem_of_app in Ht as [Ht | Ht].
    + specialize (H3 t r Ht Hcb). lia.
    + apply list_elem_of_singleton in Ht. subst t. cbn in Hcb.
      injection Hcb as <-. lia.
  - intros p Hp. injection Hp as <-. rewrite length_app. cbn. lia.
Qed.

Lemma wf_onComplete (w w' : World) : wf w -> onComplete w = Normal w' -> wf w'.
Proof.
  intros Hwf. rewrite onComplete_eq. intros H. injection H as <-.
  destruct (tauriDriver w) as [p|] eqn:Hp; [|exact Hwf].
  destruct Hwf as [H1 H2 H3 H4]. split; cbn [tauriDriver processes promises timers].
  - rewrite length_alter. exact H1.
  - intros q c Hq. rewrite list_lookup_alter in Hq. case_decide as Hpq.
    + subst q. destruct (processes w !! p) as [c0|] eqn:Hc0; [|discriminate].
      cbn in Hq. injection Hq as <-. exact (H2 p c0 Hc0).
    + eauto.
  - exact H3.
  - discriminate.
Qed.

Lemma wf_step (w : World) (a : Action) : wf w -> wf (step w a).
Proof.
  intros Hwf. destruct a as [now| |p data|p data|p err|p ec|now].
  - apply wf_onPrepare, Hwf.
  - cbn [step]. destruct (onComplete w) as [w'|e] eqn:Hc; [|exact Hwf].
    exact (wf_onComplete w w' Hwf Hc).
  - rewrite step_stdout by exact Hwf. case_decide; [apply wf_call_data|]; exact Hwf.
  - rewrite step_stderr by exact Hwf. case_decide; [apply wf_console|]; exact Hwf.
  - rewrite step_error by exact Hwf. case_decide; [apply wf_call_error|]; exact Hwf.
  - exact Hwf.
  - cbn [step]. rewrite run_timers_eq. destruct Hwf as [H1 H2 H3 H4].
    split; cbn [tauriDriver processes promises timers].
    + rewrite length_reject_all. exact H1.
    + exact H2.
    + intros t r Ht Hcb. rewrite length_reject_all.
      apply list_elem_of_In, filter_In in Ht as [Ht _].
      apply list_elem_of_In in Ht. eauto.
    + exact H4.
Qed.

Lemma wf_run (tr : list Action) (w : World) : wf w -> wf (run w tr).
Proof.
  revert w. induction tr as [|a tr IH]; intros w Hwf; [exact Hwf|].
  apply IH, wf_step, Hwf.
Qed.

Lemma wf_reachable (history : list Action) : wf (run init history).
Proof. apply wf_run, wf_init. Qed.

Lemma run_app (w : World) (tr1 tr2 : list Action) :
  run w (tr1 ++ tr2) = run (run w tr1) tr2.
Proof. apply fold_left_app. Qed.

(** ** A settled promise stays as it is *)

Lemma outcome_console (r : promise_id) (c : list LogEntry) (w : World) :
  outcome r (set_console c w) = outcome r w.
Proof. reflexivity. Qed.

Lemma settled_call_data (l : DataListener) (data : Buffer) (w : World) (r : promise_id) :
  settled (outcome r w) = true -> outcome r (call_data l data w) = outcome r w.
Proof.
  intros Hs. destruct l as [r'|]; cbn [call_data]; [|reflexivity].
  destruct (includes _ _); [|reflexivity].
  unfold resolve. rewrite outcome_settle_stable; [reflexivity | exact Hs].
Qed.

Lemma settled_call_error (l : ErrorListener) (err : Error) (w : World) (r : promise_id) :
  settled (outcome r w) = true -> outcome r (call_error l err w) = outcome r w.
Proof.
  intros Hs. destruct l as [r']; cbn [call_error].
  unfold reject. rewrite outcome_settle_stable; [reflexivity | exact Hs].
Qed.

Lemma settled_emit_data (ls : list DataListener) (data : Buffer) (w : World) (r : promise_id) :
  settled (outcome r w) = true -> outcome r (emit_data ls data w) = outcome r w.
Proof.
  revert w. induction ls as [|l ls IH]; intros w Hs; [reflexivity|].
  unfold emit_data in *. cbn [fold_left].
  rewrite IH; rewrite settled_call_data; auto.
Qed.

Lemma settled_emit_error (ls : list ErrorListener) (err : Error) (w : World) (r : promise_id) :
  settled (outcome r w) = true -> outcome r (emit_error ls err w) = outcome r w.
Proof.
  revert w. induction ls as [|l ls IH]; intros w Hs; [reflexivity|].
  unfold emit_error in *. cbn [fold_left].
  rewrite IH; rewrite settled_call_error; auto.
Qed.

Lemma settled_step (w : World) (a : Action) (r : promise_id) :
  settled (outcome r w) = true -> outcome r (step w a) = outcome r w.
Proof.
  intros Hs. destruct a as [now| |p data|p data|p err|p ec|now]; cbn [step].
  - rewrite onPrepare_eq. unfold outcome in *. cbn [snd promises].
    destruct (promises w !! r) as [st|] eqn:Hr; [|discriminate].
    rewrite (lookup_app_l_Some _ _ _ _ Hr). reflexivity.
  - rewrite onComplete_eq. destruct (tauriDriver w); reflexivity.
  - apply settled_emit_data, Hs.
  - apply settled_emit_data, Hs.
  - apply settled_emit_error, Hs.
  - reflexivity.
  - rewrite run_timers_eq. unfold outcome in *. cbn [promises].
    rewrite lookup_reject_all. destruct (existsb _ _); [|reflexivity].
    destruct (promises w !! r) as [st|]; [|discriminate].
    cbn in *. rewrite settle_settled by exact Hs. reflexivity.
Qed.

Lemma settled_run (tr : list Action) (w : World) (r : promise_id) :
  settled (outcome r w) = true -> outcome r (run w tr) = outcome r w.
Proof.
  revert w. induction tr as [|a tr IH]; intros w Hs; [reflexivity|].
  cbn [run fold_left]. fold (run (step w a) tr).
  rewrite IH; rewrite settled_step; auto.
Qed.

(** ** The race of one [onPrepare] call *)

Lemma armed_onPrepare (t0 : Z) (w : World) :
  wf w ->
  armed (length (promises w)) (t0 + startup_timeout) (snd (onPrepare t0 w)).
Proof.
  intros Hwf. rewrite onPrepare_eq. cbn [snd].
  split; cbn [promises timers].
  - rewrite length_app. cbn. lia.
  - intros t Ht Hcb. apply elem_of_app in Ht as [Ht | Ht].
    + pose proof (wf_timers w Hwf t _ Ht Hcb). lia.
    + apply list_elem_of_singleton in Ht. subst t. reflexivity.
  - intros _. apply elem_of_app. right. apply list_elem_of_singleton. reflexivity.
Qed.

Lemma due_timer_found (r : promise_id) (d now : Z) (ts : list Timer) :
  mkTimer d (StartupTimeout r) ∈ ts -> d <= now ->
  existsb (fun t => (timer_target t =? r)%nat) (List.filter (is_due now) ts) = true.
Proof.
  intros Hin Hd. apply existsb_exists. exists (mkTimer d (StartupTimeout r)). split.
  - apply filter_In. split; [apply list_elem_of_In, Hin|].
    unfold is_due. cbn. apply Z.leb_le, Hd.
  - cbn. apply Nat.eqb_refl.
Qed.

Lemma no_due_timer (r : promise_id) (d now : Z) (ts : list Timer) :
  (forall t, t ∈ ts -> callback t = StartupTimeout r -> due t = d) -> now < d ->
  existsb (fun t => (timer_target t =? r)%nat) (List.filter (is_due now) ts) = false.
Proof.
  intros Hdue Hd. apply not_true_is_false. intros H.
  apply existsb_exists in H as [t [Ht Hr]].
  apply filter_In in Ht as [Ht Hnow]. apply Nat.eqb_eq in Hr.
  unfold timer_target in Hr. destruct (callback t) as [r'] eqn:Hcb. subst r'.
  apply list_elem_of_In in Ht. specialize (Hdue t Ht Hcb).
  unfold is_due in Hnow. apply Z.leb_le in Hnow. lia.
Qed.

Lemma pending_step (w : World) (a : Action) (r : promise_id) (t0 : Z) :
  wf w -> armed r (t0 + startup_timeout) w -> outcome r w = Pending ->
  outcome r (step w a) = default Pending (verdict r t0 a).
Proof.
  intros Hwf [Hlt Hdue Hin] Hpend. specialize (Hin Hpend).
  assert (Hlt' : (r < length (processes w))%nat) by (rewrite (wf_len w Hwf); exact Hlt).
  destruct a as [now| |p data|p data|p err|p ec|now]; cbn [verdict default].
  - cbn [step]. rewrite onPrepare_eq. unfold outcome in *. cbn [snd promises].
    rewrite lookup_app_l by exact Hlt. exact Hpend.
  - cbn [step]. rewrite onComplete_eq. destruct (tauriDriver w); exact Hpend.
  - rewrite step_stdout by exact Hwf. cbn [call_data].
    destruct (Nat.eqb_spec p r) as [->|Hne]; cbn [andb].
    + rewrite decide_True by exact Hlt'.
      destruct (includes (toString data) marker); [|exact Hpend].
      unfold resolve, console_log. rewrite outcome_alter_eq by exact Hlt.
      rewrite outcome_console, Hpend. reflexivity.
    + case_decide; [|exact Hpend].
      destruct (includes (toString data) marker); [|exact Hpend].
      unfold resolve. rewrite outcome_alter_ne by exact Hne. exact Hpend.
  - rewrite step_stderr by exact Hwf. case_decide; exact Hpend.
  - rewrite step_error by exact Hwf. cbn [call_error]. unfold reject, console_error.
    destruct (Nat.eqb_spec p r) as [->|Hne].
    + rewrite decide_True by exact Hlt'.
      rewrite outcome_alter_eq by exact Hlt.
      rewrite outcome_console, Hpend. reflexivity.
    + case_decide; [|exact Hpend].
      rewrite outcome_alter_ne by exact Hne. exact Hpend.
  - exact Hpend.
  - cbn [step]. rewrite run_timers_eq. unfold outcome in *. cbn [promises].
    rewrite lookup_reject_all.
    destruct (Z.leb_spec (t0 + startup_timeout) now) as [Hle|Hgt].
    + rewrite (due_timer_found r _ now _ Hin Hle).
      destruct (promises w !! r) as [st|] eqn:Hr; cbn in *; [subst st; reflexivity|].
      apply lookup_ge_None in Hr. lia.
    + rewrite (no_due_timer r _ now _ Hdue Hgt). exact Hpend.
Qed.

Lemma timers_step (w : World) (a : Action) :
  wf w ->
  timers (step w a) =
  match a with
  | CallOnPrepare now =>
      timers w ++ [mkTimer (now + startup_timeout) (StartupTimeout (length (promises w)))]
  | TimersPhase now => List.filter (fun t => negb (is_due now t)) (timers w)
  | _ => timers w
  end.
Proof.
  intros Hwf. destruct a as [now| |p data|p data|p err|p ec|now].
  - cbn [step]. rewrite onPrepare_eq. reflexivity.
  - cbn [step]. rewrite onComplete_eq. destruct (tauriDriver w); reflexivity.
  - rewrite step_stdout by exact Hwf. cbn [call_data].
    case_decide; [|reflexivity]. destruct (includes _ _); reflexivity.
  - rewrite step_stderr by exact Hwf. case_decide; reflexivity.
  - rewrite step_error by exact Hwf. case_decide; reflexivity.
  - reflexivity.
  - cbn [step]. rewrite run_timers_eq. reflexivity.
Qed.

Lemma length_promises_step (w : World) (a : Action) :
  wf w -> (length (promises w) <= length (promises (step w a)))%nat.
Proof.
  intros Hwf. destruct a as [now| |p data|p data|p err|p ec|now].
  - cbn [step]. rewrite onPrepare_eq. cbn [snd promises]. rewrite length_app. lia.
  - cbn [step]. rewrite onComplete_eq. destruct (tauriDriver w); reflexivity.
  - rewrite step_stdout by exact Hwf. cbn [call_data].
    case_decide; [|reflexivity]. destruct (includes _ _); [|reflexivity].
    cbn. rewrite length_alter. reflexivity.
  - rewrite step_stderr by exact Hwf. case_decide; reflexivity.
  - rewrite step_error by exact Hwf. case_decide; [|reflexivity].
    cbn. rewrite length_alter. reflexivity.
  - reflexivity.
  - cbn [step]. rewrite run_timers_eq. cbn [promises].
    rewrite length_reject_all. reflexivity.
Qed.

Lemma armed_step (w : World) (a : Action) (r : promise_id) (t0 : Z) :
  wf w -> armed r (t0 + startup_timeout) w -> armed r (t0 + startup_timeout) (step w a).
Proof.
  intros Hwf Harm. pose proof Harm as [Hlt Hdue Hin]. split.
  - pose proof (length_promises_step w a Hwf). lia.
  - rewrite timers_step by exact Hwf. intros t Ht Hcb.
    destruct a as [now| |p data|p data|p err|p ec|now]; eauto.
    + apply elem_of_app in Ht as [Ht | Ht]; [eauto|].
      apply list_elem_of_singleton in Ht. subst t. cbn in Hcb.
      injection Hcb as Hcb. lia.
    + apply list_elem_of_In, filter_In in Ht as [Ht _].
      apply list_elem_of_In in Ht. eauto.
  - intros Hafter.
    assert (Hbefore : outcome r w = Pending).
    { destruct (outcome r w) eqn:Hw; [reflexivity| |];
        rewrite settled_step in Hafter by (rewrite Hw; reflexivity); congruence. }
    specialize (Hin Hbefore).
    rewrite (pending_step w a r t0 Hwf Harm Hbefore) in Hafter.
    rewrite timers_step by exact Hwf.
    destruct a as [now| |p data|p data|p err|p ec|now]; try exact Hin.
    + apply elem_of_app. left. exact Hin.
    + cbn [verdict] in Hafter.
      destruct (Z.leb_spec (t0 + startup_timeout) now) as [Hle|Hgt]; [discriminate|].
      apply list_elem_of_In, filter_In. split; [apply list_elem_of_In, Hin|].
      unfold is_due. cbn. apply negb_true_iff, Z.leb_gt, Hgt.
Qed.

Lemma verdict_settled (p : pid) (t0 : Z) (a : Action) (st : PromiseState) :
  verdict p t0 a = Some st -> settled st = true.
Proof.
  destruct a as [now| |q data|q data|q err|q ec|now]; cbn [verdict]; try discriminate.
  - destruct (_ && _); [|discriminate]. intros H. injection H as <-. reflexivity.
  - destruct (_ =? _)%nat; [|discriminate]. intros H. injection H as <-. reflexivity.
  - destruct (_ <=? _); [|discriminate]. intros H. injection H as <-. reflexivity.
Qed.


Lemma verdict_undecided (p : pid) (t0 : Z) (a : Action) :
  decides p t0 a = false -> verdict p t0 a = None.
Proof.
  unfold decides.
  destruct a as [now| |q data|q data|q err|q ec|now]; cbn; try reflexivity.
  - destruct (_ && _); [discriminate | reflexivity].
  - destruct (_ =? _)%nat; [discriminate | reflexivity].
  - destruct (_ <=? _); [discriminate | reflexivity].
Qed.

Lemma first_verdict_skip (p : pid) (t0 : Z) (pre tr : list Action) :
  forallb (fun a => negb (decides p t0 a)) pre = true ->
  first_verdict p t0 (pre ++ tr) = first_verdict p t0 tr.
Proof.
  induction pre as [|a pre IH]; cbn [forallb app first_verdict]; [reflexivity|].
  intros H. apply andb_true_iff in H as [Ha Hpre].
  apply negb_true_iff in Ha. rewrite (verdict_undecided p t0 a Ha). auto.
Qed.

Lemma race_outcome (tr : list Action) (w : World) (r : promise_id) (t0 : Z) :
  wf w -> armed r (t0 + startup_timeout) w -> outcome r w = Pending ->
  outcome r (run w tr) = first_verdict r t0 tr.
Proof.
  revert w. induction tr as [|a tr IH]; intros w Hwf Harm Hpend; [exact Hpend|].
  cbn [run fold_left first_verdict]. fold (run (step w a) tr).
  pose proof (pending_step w a r t0 Hwf Harm Hpend) as Hstep.
  destruct (verdict r t0 a) as [st|] eqn:Hv; cbn [default] in Hstep.
  - rewrite settled_run; [exact Hstep|].
    rewrite Hstep. exact (verdict_settled r t0 a st Hv).
  - apply IH; [apply wf_step, Hwf | apply armed_step; assumption | exact Hstep].
Qed.

(** What [onPrepare] returns in a reachable world, and the race it starts:
    the child and the promise carry the same index, and the promise ends
    as the first deciding event says. *)
Lemma onPrepare_started (history : list Action) (t0 : Z) (r : promise_id) (w1 : World) (p : pid) :
  onPrepare t0 (run init history) = (r, w1) ->
  tauriDriver w1 = Some p ->
  p = length (processes (run init history)) /\ r = p /\ wf w1 /\
  forall tr, outcome r (run w1 tr) = first_verdict p t0 tr.
Proof.
  intros Hstart Hp. pose proof (wf_reachable history) as Hwf.
  pose proof (wf_onPrepare t0 _ Hwf) as Hwf1.
  pose proof (armed_onPrepare t0 _ Hwf) as Harm.
  rewrite Hstart in Hwf1, Harm. cbn [snd] in Hwf1, Harm.
  rewrite onPrepare_eq in Hstart. injection Hstart as Hr Hw1.
  rewrite <- Hw1 in Hp. cbn in Hp. injection Hp as Hp.
  pose proof (wf_len _ Hwf) as Hlen.
  assert (Hrp : r = p) by congruence.
  split; [congruence|]. split; [exact Hrp|]. split; [exact Hwf1|].
  intros tr. rewrite <- Hrp. apply race_outcome; [exact Hwf1 | |].
  - rewrite <- Hr. exact Harm.
  - rewrite <- Hw1, <- Hr. unfold outcome. cbn [promises].
    rewrite lookup_app_r by lia. rewrite Nat.sub_diag. reflexivity.
Qed.

Lemma armed_run (tr : list Action) (w : World) (r : promise_id) (t0 : Z) :
  wf w -> armed r (t0 + startup_timeout) w -> armed r (t0 + startup_timeout) (run w tr).
Proof.
  revert w. induction tr as [|a tr IH]; intros w Hwf Harm; [exact Harm|].
  apply IH; [apply wf_step, Hwf | apply armed_step; assumption].
Qed.

Lemma onPrepare_armed (history : list Action) (t0 : Z) (r : promise_id) (w1 : World) :
  onPrepare t0 (run init history) = (r, w1) -> armed r (t0 + startup_timeout) w1.
Proof.
  intros Hstart. pose proof (armed_onPrepare t0 _ (wf_reachable history)) as Harm.
  rewrite Hstart in Harm. rewrite onPrepare_eq in Hstart. injection Hstart as Hr _.
  rewrite Hr in Harm. exact Harm.
Qed.

Lemma first_verdict_marker (p : pid) (t0 : Z) (pre post : list Action) (data : Buffer) :
  includes (toString data) marker = true ->
  forallb (fun a => negb (fires_timer t0 a) && negb (is_error_of p a)) pre = true ->
  first_verdict p t0 (pre ++ StdoutData p data :: post) = Fulfilled.
Proof.
  intros Hm. induction pre as [|a pre IH]; cbn [forallb app first_verdict].
  - intros _. cbn [verdict]. rewrite Nat.eqb_refl, Hm. reflexivity.
  - intros H. apply andb_true_iff in H as [Ha Hpre].
    apply andb_true_iff in Ha as [Ht He]. apply negb_true_iff in Ht, He.
    destruct a as [now| |q d|q d|q err|q ec|now]; cbn in Ht, He |- *; auto.
    + destruct (_ && _); auto.
    + rewrite He. auto.
    + rewrite Ht. auto.
Qed.

(** * The claims *)

(** C1.  After [onPrepare], if a standard-output chunk of the spawned
    child contains ["Listening on"] and no timers phase at or past the
    30000 ms deadline and no ['error'] event of the child came before it,
    the returned promise is fulfilled, whatever follows. *)
Theorem marker_chunk_resolves
    (history : list Action) (t0 : Z) (r : promise_id) (w1 : World) (p : pid)
    (pre post : list Action) (data : Buffer) :
  onPrepare t0 (run init history) = (r, w1) ->
  tauriDriver w1 = Some p ->
  includes (toString data) marker = true ->
  forallb (fun a => negb (fires_timer t0 a) && negb (is_error_of p a)) pre = true ->
  outcome r (run w1 (pre ++ StdoutData p data :: post)) = Fulfilled.
Proof.
  intros Hstart Hp Hm Hpre.
  destruct (onPrepare_started history t0 r w1 p Hstart Hp) as (_ & _ & _ & Hrace).
  rewrite Hrace. apply first_verdict_marker; assumption.
Qed.

Lemma marker_chunk_resolves_witness :
  outcome 0
    (run (snd (onPrepare 0 init))
       ([StderrData 0 "starting"; TimersPhase 200] ++
        StdoutData 0 "Listening on 127.0.0.1:4444" :: [TimersPhase 30000]))
  = Fulfilled.
Proof.
  apply (marker_chunk_resolves [] 0 0 (snd (onPrepare 0 init)) 0
           [StderrData 0%nat "starting"; TimersPhase 200] [TimersPhase 30000]
           "Listening on 127.0.0.1:4444"); reflexivity.
Defined.



(** C5.  Once the promise of an [onPrepare] call is settled, nothing that
    happens later (a further marker chunk, a timers phase, an ['error']
    event, another hook call) changes it, and what it is settled to is the
    verdict of the first marker chunk, ['error'] event or due timers phase
    of the schedule. *)
Theorem settled_outcome_is_final
    (history : list Action) (t0 : Z) (r : promise_id) (w1 : World) (p : pid)
    (tr later : list Action) :
  onPrepare t0 (run init history) = (r, w1) ->
  tauriDriver w1 = Some p ->
  settled (outcome r (run w1 tr)) = true ->
  outcome r (run w1 (tr ++ later)) = outcome r (run w1 tr) /\
  outcome r (run w1 tr) = first_verdict p t0 tr.
Proof.
  intros Hstart Hp Hs.
  destruct (onPrepare_started history t0 r w1 p Hstart Hp) as (_ & _ & _ & Hrace).
  split; [|apply Hrace].
  rewrite run_app. apply settled_run, Hs.
Qed.

Lemma settled_outcome_is_final_witness :
  let w1 := snd (onPrepare 0 init) in
  let tr := [StdoutData 0 "Listening on 127.0.0.1:4444"] in
  let later :=
    [StdoutData 0 "Listening on 127.0.0.1:4444"; ProcessError 0 (newError "EPIPE");
     TimersPhase 30000] in
  outcome 0 (run w1 (tr ++ later)) = outcome 0 (run w1 tr) /\
  outcome 0 (run w1 tr) = first_verdict 0 0 tr.
Proof.
  apply (settled_outcome_is_final [] 0 0 (snd (onPrepare 0 init)) 0); reflexivity.
Defined.

(** C10.  Matching is per chunk: the chunks ["Listening "] and
    ["on 127.0.0.1:4444"] together spell the marker, neither contains it,
    and after both the promise is still pending; the timers phase at or
    past the deadline then rejects it with the timeout error. *)
Theorem split_marker_is_missed
    (history : list Action) (t0 : Z) (r : promise_id) (w1 : World) (p : pid) (now : Z) :
  onPrepare t0 (run init history) = (r, w1) ->
  tauriDriver w1 = Some p ->
  t0 + 30000 <= now ->
  let chunk1 : Buffer := "Listening "%string in
  let chunk2 : Buffer := "on 127.0.0.1:4444"%string in
  let chunks := [StdoutData p chunk1; StdoutData p chunk2] in
  includes (String.append (toString chunk1) (toString chunk2)) marker = true /\
  includes (toString chunk1) marker = false /\
  includes (toString chunk2) marker = false /\
  outcome r (run w1 chunks) = Pending /\
  outcome r (run w1 (chunks ++ [TimersPhase now])) =
    Rejected (newError "tauri-driver startup timeout").
Proof.
  intros Hstart Hp Hnow chunk1 chunk2 chunks.
  destruct (onPrepare_started history t0 r w1 p Hstart Hp) as (_ & _ & _ & Hrace).
  split; [reflexivity|]. split; [reflexivity|]. split; [reflexivity|].
  rewrite !Hrace. subst chunks chunk1 chunk2.
  cbn [app first_verdict verdict]. rewrite Nat.eqb_refl. cbn [andb].
  change (includes (toString "Listening ") marker) with false.
  change (includes (toString "on 127.0.0.1:4444") marker) with false.
  split; [reflexivity|].
  unfold startup_timeout. rewrite (proj2 (Z.leb_le _ _) Hnow). reflexivity.
Qed.

Lemma split_marker_is_missed_witness :
  let w1 := snd (onPrepare 0 init) in
  let chunks := [StdoutData 0 "Listening "; StdoutData 0 "on 127.0.0.1:4444"] in
  includes (String.append "Listening " "on 127.0.0.1:4444") marker = true /\
  includes "Listening " marker = false /\
  includes "on 127.0.0.1:4444" marker = false /\
  outcome 0 (run w1 chunks) = Pending /\
  outcome 0 (run w1 (chunks ++ [TimersPhase 30000])) =
    Rejected (newError "tauri-driver startup timeout").
Proof.
  apply (split_marker_is_missed [] 0 0 (snd (onPrepare 0 init)) 0 30000);
    [reflexivity | reflexivity | lia].
Defined.

(** C3, as the code has it.  The configuration listens to no ['exit']
    event: when the child exits before any marker chunk, ['error'] event or
    due timers phase, the exit changes nothing and the promise stays
    pending; with no marker chunk or ['error'] event after it, the promise
    is rejected only by the timers phase at or past the 30000 ms deadline,
    with the fixed timeout error, which carries no standard-error text. *)
Theorem exit_before_marker_waits_for_timeout
    (history : list Action) (t0 : Z) (r : promise_id) (w1 : World) (p : pid)
    (pre quiet : list Action) (exit_code now : Z) :
  onPrepare t0 (run init history) = (r, w1) ->
  tauriDriver w1 = Some p ->
  forallb (fun a => negb (decides p t0 a)) pre = true ->
  forallb (fun a => negb (decides p t0 a)) quiet = true ->
  t0 + 30000 <= now ->
  run w1 (pre ++ [ProcessExit p exit_code]) = run w1 pre /\
  outcome r (run w1 (pre ++ [ProcessExit p exit_code])) = Pending /\
  outcome r (run w1 (pre ++ ProcessExit p exit_code :: quiet ++ [TimersPhase now])) =
    Rejected (newError "tauri-driver startup timeout").
Proof.
  intros Hstart Hp Hpre Hquiet Hnow.
  destruct (onPrepare_started history t0 r w1 p Hstart Hp) as (_ & _ & _ & Hrace).
  split; [rewrite run_app; reflexivity|].
  rewrite !Hrace. rewrite !first_verdict_skip by exact Hpre.
  split; [reflexivity|].
  cbn [first_verdict verdict]. rewrite first_verdict_skip by exact Hquiet.
  cbn [first_verdict verdict]. unfold startup_timeout.
  rewrite (proj2 (Z.leb_le _ _) Hnow). reflexivity.
Qed.

Lemma exit_before_marker_waits_for_timeout_witness :
  let w1 := snd (onPrepare 0 init) in
  let pre := [StderrData 0 "port in use"] in
  run w1 (pre ++ [ProcessExit 0 1]) = run w1 pre /\
  outcome 0 (run w1 (pre ++ [ProcessExit 0 1])) = Pending /\
  outcome 0 (run w1 (pre ++ ProcessExit 0 1 :: [TimersPhase 50] ++ [TimersPhase 30000])) =
    Rejected (newError "tauri-driver startup timeout").
Proof.
  apply (exit_before_marker_waits_for_timeout [] 0 0 (snd (onPrepare 0 init)) 0
           [StderrData 0%nat "port in use"] [TimersPhase 50] 1 30000);
    [reflexivity | reflexivity | reflexivity | reflexivity | lia].
Defined.

(** C3 as the specification states it fails: the child writes
    ["port in use"] to standard error and exits with code 1; the promise is
    not rejected then, and the error that rejects it at the deadline does
    not carry that text. *)
Lemma exit_before_marker_counterexample :
  let w := run init [CallOnPrepare 0; StderrData 0 "port in use"; ProcessExit 0 1] in
  outcome 0 w = Pending /\
  outcome 0 (step w (TimersPhase 30000)) = Rejected timeout_error /\
  includes (message timeout_error) "port in use" = false.
Proof. repeat split. Qed.

(** ** The handle and the children *)

Lemma event_keeps_children (w : World) (a : Action) :
  wf w -> is_hook_call a = false ->
  processes (step w a) = processes w /\ tauriDriver (step w a) = tauriDriver w.
Proof.
  intros Hwf Ha. destruct a as [now| |p data|p data|p err|p ec|now]; try discriminate.
  - rewrite step_stdout by exact Hwf. cbn [call_data].
    case_decide; [|split; reflexivity]. destruct (includes _ _); split; reflexivity.
  - rewrite step_stderr by exact Hwf. case_decide; split; reflexivity.
  - rewrite step_error by exact Hwf. case_decide; split; reflexivity.
  - split; reflexivity.
  - cbn [step]. rewrite run_timers_eq. split; reflexivity.
Qed.

Lemma events_keep_children (tr : list Action) (w : World) :
  wf w -> forallb (fun a => negb (is_hook_call a)) tr = true ->
  processes (run w tr) = processes w /\ tauriDriver (run w tr) = tauriDriver w.
Proof.
  revert w. induction tr as [|a tr IH]; intros w Hwf Htr; [split; reflexivity|].
  cbn [forallb] in Htr. apply andb_true_iff in Htr as [Ha Htr].
  apply negb_true_iff in Ha.
  destruct (event_keeps_children w a Hwf Ha) as [Hps Hh].
  destruct (IH (step w a) (wf_step w a Hwf) Htr) as [Hps' Hh'].
  cbn [run fold_left]. fold (run (step w a) tr). split; congruence.
Qed.




(** C6.  In every reachable world [onComplete] completes normally; when
    the handle holds a child it sends that child one [kill()] inside the
    call, when it holds none it changes nothing; afterwards the handle is
    [null], and a second call in a row changes nothing, so sends no
    [kill()]. *)
Theorem onComplete_total_idempotent (history : list Action) :
  let w := run init history in
  exists w',
    onComplete w = Normal w' /\
    tauriDriver w' = None /\
    match tauriDriver w with
    | Some p =>
        (p < length (processes w))%nat /\
        kills (child p w') = S (kills (child p w)) /\
        forall q, q <> p -> child q w' = child q w
    | None => w' = w
    end /\
    onComplete w' = Normal w'.
Proof.
  intros w. pose proof (wf_reachable history) as Hwf. fold w in Hwf.
  rewrite onComplete_eq. eexists. split; [reflexivity|].
  destruct (tauriDriver w) as [p|] eqn:Hp.
  - split; [reflexivity|]. split; [|reflexivity].
    pose proof (wf_handle w Hwf p Hp) as Hlt.
    split; [exact Hlt|]. unfold child. cbn [processes]. split.
    + rewrite list_lookup_alter_eq.
      destruct (processes w !! p) as [c|] eqn:Hc; [reflexivity|].
      apply lookup_ge_None in Hc. lia.
    + intros q Hq. rewrite list_lookup_alter_ne by congruence. reflexivity.
  - split; [exact Hp|]. split; [reflexivity|].
    rewrite onComplete_eq, Hp. reflexivity.
Qed.






(** C8, as the code has it.  A standard-output chunk without the marker
    is dropped: the listener logs nothing and changes nothing, so the
    world after the event is the world before it. *)
Theorem plain_stdout_chunk_is_dropped (history : list Action) (p : pid) (data : Buffer) :
  includes (toString data) marker = false ->
  step (run init history) (StdoutData p data) = run init history.
Proof.
  intros Hm. rewrite step_stdout by apply wf_reachable.
  cbn [call_data]. rewrite Hm. case_decide; reflexivity.
Qed.

Lemma plain_stdout_chunk_is_dropped_witness :
  step (run init [CallOnPrepare 0]) (StdoutData 0 "starting up")
  = run init [CallOnPrepare 0].
Proof.
  apply (plain_stdout_chunk_is_dropped [CallOnPrepare 0] 0 "starting up"). reflexivity.
Defined.

(** C8 as the specification states it fails: the chunk ["starting up"]
    does not contain the marker and nothing reaches the console. *)
Lemma plain_stdout_chunk_counterexample :
  let w := run init [CallOnPrepare 0] in
  includes (toString "starting up") marker = false /\
  console w = [] /\
  console (step w (StdoutData 0 "starting up")) = [].
Proof. repeat split. Qed.

(** ** Standard error does not steer the race *)

Lemma wf_mute_eq (w w' : World) : mute w = mute w' -> wf w -> wf w'.
Proof.
  destruct w, w'. unfold mute, set_console. cbn. intros H. injection H as -> -> -> ->.
  intros [H1 H2 H3 H4]. split; assumption.
Qed.

Lemma mute_step_stderr (w : World) (a : Action) :
  wf w -> is_stderr a = true -> mute (step w a) = mute w.
Proof.
  intros Hwf Ha. destruct a as [now| |p data|p data|p err|p ec|now]; try discriminate.
  rewrite step_stderr by exact Hwf. case_decide; reflexivity.
Qed.

Lemma mute_step_congr (w w' : World) (a : Action) :
  wf w -> mute w = mute w' -> mute (step w a) = mute (step w' a).
Proof.
  intros Hwf Hm. pose proof (wf_mute_eq w w' Hm Hwf) as Hwf'.
  destruct a as [now| |p data|p data|p err|p ec|now].
  - cbn [step]. rewrite !onPrepare_eq. cbn [snd].
    destruct w, w'. cbn in *. injection Hm as -> -> -> ->. reflexivity.
  - cbn [step]. rewrite !onComplete_eq.
    destruct w, w'. cbn in *. injection Hm as -> -> -> ->.
    destruct tauriDriver1; reflexivity.
  - rewrite !step_stdout by assumption. cbn [call_data].
    destruct w, w'. cbn in *. injection Hm as -> -> -> ->.
    case_decide; [|reflexivity]. destruct (includes _ _); reflexivity.
  - rewrite !mute_step_stderr by (assumption || reflexivity). exact Hm.
  - rewrite !step_error by assumption. cbn [call_error].
    destruct w, w'. cbn in *. injection Hm as -> -> -> ->.
    case_decide; reflexivity.
  - exact Hm.
  - cbn [step]. rewrite !run_timers_eq.
    destruct w, w'. cbn in *. injection Hm as -> -> -> ->. reflexivity.
Qed.

Lemma mute_run_filter (tr : list Action) (w w' : World) :
  wf w -> mute w = mute w' ->
  mute (run w tr) = mute (run w' (List.filter (fun a => negb (is_stderr a)) tr)).
Proof.
  revert w w'. induction tr as [|a tr IH]; intros w w' Hwf Hm; [exact Hm|].
  cbn [List.filter run fold_left]. fold (run (step w a) tr).
  destruct (is_stderr a) eqn:Ha; cbn [negb].
  - apply IH; [apply wf_step, Hwf|].
    rewrite mute_step_stderr by assumption. exact Hm.
  - cbn [run fold_left]. fold (run (step w' a) (List.filter (fun a => negb (is_stderr a)) tr)).
    apply IH; [apply wf_step, Hwf|]. apply mute_step_congr; assumption.
Qed.

Lemma outcome_mute (r : promise_id) (w : World) : outcome r (mute w) = outcome r w.
Proof. reflexivity. Qed.

(** C9.  Every standard-error chunk of a spawned child is printed by
    [console.error], and standard error does not influence the race: two
    schedules that are the same but for their standard-error chunks leave
    every promise in the same state (and the same world but for the
    console). *)
Theorem stderr_is_logged_and_ignored
    (tr1 tr2 : list Action) (p : pid) (data : Buffer) :
  List.filter (fun a => negb (is_stderr a)) tr1 =
  List.filter (fun a => negb (is_stderr a)) tr2 ->
  (p < length (processes (run init tr1)))%nat ->
  console (step (run init tr1) (StderrData p data)) =
    console (run init tr1) ++
    [ConsoleError [VString "[tauri-driver]"; VString (toString data)]] /\
  mute (step (run init tr1) (StderrData p data)) = mute (run init tr1) /\
  mute (run init tr1) = mute (run init tr2) /\
  forall r, outcome r (run init tr1) = outcome r (run init tr2).
Proof.
  intros Htr Hp.
  assert (Hm : mute (run init tr1) = mute (run init tr2)).
  { rewrite (mute_run_filter tr1 init init wf_init eq_refl).
    rewrite (mute_run_filter tr2 init init wf_init eq_refl).
    rewrite Htr. reflexivity. }
  split; [|split; [|split]].
  - rewrite step_stderr by apply wf_reachable.
    rewrite decide_True by exact Hp. reflexivity.
  - apply mute_step_stderr; [apply wf_reachable | reflexivity].
  - exact Hm.
  - intros r. rewrite <- (outcome_mute r (run init tr1)), Hm. reflexivity.
Qed.

Lemma stderr_is_logged_and_ignored_witness :
  let tr1 :=
    [CallOnPrepare 0; StderrData 0 "port in use"; StdoutData 0 "Listening on :4444"] in
  let tr2 :=
    [CallOnPrepare 0; StdoutData 0 "Listening on :4444"; StderrData 0 "Listening on";
     StderrData 0 "x"] in
  console (step (run init tr1) (StderrData 0 "late")) =
    console (run init tr1) ++ [ConsoleError [VString "[tauri-driver]"; VString (toString "late")]] /\
  mute (step (run init tr1) (StderrData 0 "late")) = mute (run init tr1) /\
  mute (run init tr1) = mute (run init tr2) /\
  forall r, outcome r (run init tr1) = outcome r (run init tr2).
Proof.
  apply (stderr_is_logged_and_ignored
           [CallOnPrepare 0; StderrData 0%nat "port in use";
            StdoutData 0%nat "Listening on :4444"]
           [CallOnPrepare 0; StdoutData 0%nat "Listening on :4444";
            StderrData 0%nat "Listening on"; StderrData 0%nat "x"]
           0 "late"); [reflexivity | cbn; lia].
Defined.

(** * Further properties of the two hooks *)

(** ** What settles the race *)


Lemma verdict_concerns (p : pid) (t0 : Z) (a : Action) :
  concerns p a = false -> verdict p t0 a = None.
Proof.
  destruct a as [now| |q data|q data|q err|q ec|now]; cbn; try reflexivity.
  - intros ->. reflexivity.
  - intros ->. reflexivity.
  - discriminate.
Qed.

Lemma first_verdict_concerns (p : pid) (t0 : Z) (tr : list Action) :
  first_verdict p t0 (List.filter (concerns p) tr) = first_verdict p t0 tr.
Proof.
  induction tr as [|a tr IH]; [reflexivity|].
  cbn [List.filter]. destruct (concerns p a) eqn:Ha.
  - cbn [first_verdict]. rewrite IH. reflexivity.
  - cbn [first_verdict]. rewrite (verdict_concerns p t0 a Ha). exact IH.
Qed.

(** An ['error'] event of the spawned child that comes before any marker
    chunk and any due timers phase rejects the promise with the very error
    the event carries, whatever follows (lines 80-83). *)
Theorem error_first_rejects_with_it
    (history : list Action) (t0 : Z) (r : promise_id) (w1 : World) (p : pid)
    (pre post : list Action) (err : Error) :
  onPrepare t0 (run init history) = (r, w1) ->
  tauriDriver w1 = Some p ->
  forallb (fun a => negb (decides p t0 a)) pre = true ->
  outcome r (run w1 (pre ++ ProcessError p err :: post)) = Rejected err.
Proof.
  intros Hstart Hp Hpre.
  destruct (onPrepare_started history t0 r w1 p Hstart Hp) as (_ & _ & _ & Hrace).
  rewrite Hrace, first_verdict_skip by exact Hpre.
  cbn [first_verdict verdict]. rewrite Nat.eqb_refl. reflexivity.
Qed.

Lemma error_first_rejects_with_it_witness :
  outcome 0
    (run (snd (onPrepare 0 init))
       ([StderrData 0 "sh: tauri-driver: not found"] ++
        ProcessError 0 (mkError "spawn tauri-driver ENOENT" (Some "ENOENT"%string)) ::
        [StdoutData 0 "Listening on :4444"; TimersPhase 30000]))
  = Rejected (mkError "spawn tauri-driver ENOENT" (Some "ENOENT"%string)).
Proof.
  apply (error_first_rejects_with_it [] 0 0 (snd (onPrepare 0 init)) 0
           [StderrData 0%nat "sh: tauri-driver: not found"]
           [StdoutData 0%nat "Listening on :4444"; TimersPhase 30000]);
    reflexivity.
Defined.



(** The outcome of a start depends on its own child's standard-output
    chunks and ['error'] events and on the timers phases only: events of
    other children, standard-error chunks, exits and further hook calls
    can be removed from the schedule without changing it. *)
Theorem outcome_depends_on_own_events
    (history : list Action) (t0 : Z) (r : promise_id) (w1 : World) (p : pid)
    (tr : list Action) :
  onPrepare t0 (run init history) = (r, w1) ->
  tauriDriver w1 = Some p ->
  outcome r (run w1 tr) = outcome r (run w1 (List.filter (concerns p) tr)).
Proof.
  intros Hstart Hp.
  destruct (onPrepare_started history t0 r w1 p Hstart Hp) as (_ & _ & _ & Hrace).
  rewrite !Hrace. symmetry. apply first_verdict_concerns.
Qed.

Lemma outcome_depends_on_own_events_witness :
  let tr :=
    [CallOnPrepare 5; StdoutData 1 "Listening on :4445"; ProcessError 1 (newError "EPIPE");
     CallOnComplete; StdoutData 0 "Listening on :4444"] in
  outcome 0 (run (snd (onPrepare 0 init)) tr) =
  outcome 0 (run (snd (onPrepare 0 init)) (List.filter (concerns 0) tr)).
Proof.
  apply (outcome_depends_on_own_events [] 0 0 (snd (onPrepare 0 init)) 0); reflexivity.
Defined.

(** While the race is open, a standard-output chunk of the child fulfils
    the promise exactly when the marker occurs in it as a contiguous
    substring, at any position (line 70). *)
Theorem chunk_resolves_iff_marker_inside
    (history : list Action) (t0 : Z) (r : promise_id) (w1 : World) (p : pid)
    (pre : list Action) (data : Buffer) :
  onPrepare t0 (run init history) = (r, w1) ->
  tauriDriver w1 = Some p ->
  forallb (fun a => negb (decides p t0 a)) pre = true ->
  outcome r (run w1 (pre ++ [StdoutData p data])) = Fulfilled <->
  exists before rest,
    toString data = String.append before (String.append "Listening on" rest).
Proof.
  intros Hstart Hp Hpre.
  destruct (onPrepare_started history t0 r w1 p Hstart Hp) as (_ & _ & _ & Hrace).
  rewrite Hrace, first_verdict_skip by exact Hpre.
  cbn [first_verdict verdict]. rewrite Nat.eqb_refl. cbn [andb].
  rewrite <- (includes_spec (toString data) "Listening on").
  fold marker. destruct (includes (toString data) marker); split; congruence.
Qed.

Lemma chunk_resolves_iff_marker_inside_witness :
  outcome 0
    (run (snd (onPrepare 0 init))
       ([StdoutData 0 "booting"] ++ [StdoutData 0 "[info] Listening on 127.0.0.1:4444"]))
  = Fulfilled <->
  exists before rest,
    toString "[info] Listening on 127.0.0.1:4444" =
    String.append before (String.append "Listening on" rest).
Proof.
  apply (chunk_resolves_iff_marker_inside [] 0 0 (snd (onPrepare 0 init)) 0
           [StdoutData 0%nat "booting"] "[info] Listening on 127.0.0.1:4444");
    reflexivity.
Defined.

(** ** What the listeners print *)

Lemma marker_chunks_log (chunks : list Buffer) (w : World) (p : pid) :
  wf w -> (p < length (processes w))%nat ->
  forallb (fun data => includes (toString data) marker) chunks = true ->
  console (run w (map (StdoutData p) chunks)) =
  console w ++ repeat (ConsoleLog [VString "[tauri-driver] Started"]) (length chunks).
Proof.
  revert w. induction chunks as [|data chunks IH]; intros w Hwf Hp Hm.
  - cbn. rewrite app_nil_r. reflexivity.
  - cbn [forallb] in Hm. apply andb_true_iff in Hm as [Hd Hm].
    cbn [map run fold_left length repeat].
    fold (run (step w (StdoutData p data)) (map (StdoutData p) chunks)).
    destruct (event_keeps_children w (StdoutData p data) Hwf eq_refl) as [Hps _].
    rewrite IH; [| apply wf_step, Hwf | rewrite Hps; exact Hp | exact Hm].
    rewrite step_stdout by exact Hwf. rewrite decide_True by exact Hp.
    cbn [call_data]. rewrite Hd. cbn [resolve console_log set_console set_promises console].
    rewrite <- app_assoc. reflexivity.
Qed.

(** The standard-output listener prints ['[tauri-driver] Started'] once
    for every marker chunk of a spawned child, not once per start: [n]
    marker chunks in a row add [n] such lines to the console, whether the
    promise was settled before or not (lines 68-74). *)
Theorem started_is_logged_per_marker_chunk
    (history : list Action) (p : pid) (chunks : list Buffer) :
  (p < length (processes (run init history)))%nat ->
  forallb (fun data => includes (toString data) marker) chunks = true ->
  console (run (run init history) (map (StdoutData p) chunks)) =
  console (run init history) ++
  repeat (ConsoleLog [VString "[tauri-driver] Started"]) (length chunks).
Proof.
  intros Hp Hm. apply marker_chunks_log; [apply wf_reachable | exact Hp | exact Hm].
Qed.

Lemma started_is_logged_per_marker_chunk_witness :
  console (run (run init [CallOnPrepare 0])
             (map (StdoutData 0) ["Listening on :1"; "x Listening on :2"; "Listening on"]%string)) =
  console (run init [CallOnPrepare 0]) ++
  repeat (ConsoleLog [VString "[tauri-driver] Started"]) 3.
Proof.
  apply (started_is_logged_per_marker_chunk [CallOnPrepare 0] 0
           ["Listening on :1"; "x Listening on :2"; "Listening on"]%string);
    [cbn; lia | reflexivity].
Defined.

(** Every ['error'] event of a spawned child is printed by
    [console.error] together with the error, also when the promise is
    already settled; the event touches neither the handle, the children
    nor the timers, and changes no promise but the child's own
    (lines 80-83). *)
Theorem error_event_is_logged
    (history : list Action) (p : pid) (err : Error) :
  (p < length (processes (run init history)))%nat ->
  let w := run init history in
  let w' := step w (ProcessError p err) in
  console w' =
    console w ++ [ConsoleError [VString "[tauri-driver] Failed to start:"; VError err]] /\
  tauriDriver w' = tauriDriver w /\ processes w' = processes w /\ timers w' = timers w /\
  outcome p w' = settle (Rejected err) (outcome p w) /\
  forall r, r <> p -> outcome r w' = outcome r w.
Proof.
  intros Hp w w'. pose proof (wf_reachable history) as Hwf. fold w in Hwf, Hp.
  subst w'. rewrite step_error by exact Hwf. rewrite decide_True by exact Hp.
  cbn [call_error]. unfold reject, console_error.
  repeat (split; [reflexivity|]). split.
  - rewrite outcome_alter_eq; [reflexivity|].
    cbn [set_console promises]. rewrite <- (wf_len w Hwf). exact Hp.
  - intros r Hr. rewrite outcome_alter_ne by congruence. reflexivity.
Qed.

Lemma error_event_is_logged_witness :
  let w := run init [CallOnPrepare 0; StdoutData 0 "Listening on :4444"] in
  let w' := step w (ProcessError 0 (newError "EPIPE")) in
  console w' =
    console w ++
    [ConsoleError [VString "[tauri-driver] Failed to start:"; VError (newError "EPIPE")]] /\
  tauriDriver w' = tauriDriver w /\ processes w' = processes w /\ timers w' = timers w /\
  outcome 0 w' = settle (Rejected (newError "EPIPE")) (outcome 0 w) /\
  forall r, r <> 0%nat -> outcome r w' = outcome r w.
Proof.
  apply (error_event_is_logged [CallOnPrepare 0; StdoutData 0%nat "Listening on :4444"]
           0 (newError "EPIPE")).
  cbn. lia.
Defined.

(** ** Stopping, restarting and the children *)

Lemma undecided_snoc (p : pid) (t0 : Z) (pre : list Action) (a : Action) :
  forallb (fun a => negb (decides p t0 a)) pre = true ->
  decides p t0 a = false ->
  forallb (fun a => negb (decides p t0 a)) (pre ++ [a]) = true.
Proof.
  intros Hpre Ha. rewrite forallb_app, Hpre. cbn. rewrite Ha. reflexivity.
Qed.

(** [onComplete] does not cancel a start that is still pending.  It sends
    the child its [kill()] and clears the handle, but the promise stays
    pending and its timer armed: with no marker chunk or ['error'] event
    the promise is rejected at the deadline all the same, and a marker
    chunk that still arrives fulfils it (lines 93-98 against 68-88). *)
Theorem stop_does_not_cancel_start
    (history : list Action) (t0 : Z) (r : promise_id) (w1 : World) (p : pid)
    (pre quiet : list Action) (now : Z) (data : Buffer) :
  onPrepare t0 (run init history) = (r, w1) ->
  tauriDriver w1 = Some p ->
  forallb (fun a => negb (decides p t0 a)) pre = true ->
  forallb (fun a => negb (is_hook_call a)) pre = true ->
  forallb (fun a => negb (decides p t0 a)) quiet = true ->
  t0 + 30000 <= now ->
  includes (toString data) marker = true ->
  let stopped := run w1 (pre ++ [CallOnComplete]) in
  tauriDriver stopped = None /\
  kills (child p stopped) = 1%nat /\
  outcome r stopped = Pending /\
  mkTimer (t0 + 30000) (StartupTimeout r) ∈ timers stopped /\
  outcome r (run stopped (quiet ++ [TimersPhase now])) =
    Rejected (newError "tauri-driver startup timeout") /\
  outcome r (run stopped (quiet ++ [StdoutData p data])) = Fulfilled.
Proof.
  intros Hstart Hp Hpre Hcalls Hquiet Hnow Hm stopped.
  destruct (onPrepare_started history t0 r w1 p Hstart Hp) as (Hpl & Hrp & Hwf1 & Hrace).
  pose proof (onPrepare_armed history t0 r w1 Hstart) as Harm.
  pose proof (undecided_snoc p t0 pre CallOnComplete Hpre eq_refl) as Hpre'.
  assert (Hpend : outcome r stopped = Pending).
  { subst stopped. rewrite Hrace. rewrite <- (app_nil_r (pre ++ [CallOnComplete])).
    rewrite first_verdict_skip by exact Hpre'. reflexivity. }
  destruct (events_keep_children pre w1 Hwf1 Hcalls) as [Hps Hh].
  assert (Hstop : stopped =
                  match onComplete (run w1 pre) with Normal w' => w' | Throw _ => run w1 pre end).
  { subst stopped. rewrite run_app. reflexivity. }
  rewrite onComplete_eq, Hh, Hp in Hstop.
  split; [rewrite Hstop; reflexivity|]. split.
  { rewrite Hstop. unfold child. cbn [processes]. rewrite list_lookup_alter_eq, Hps.
    rewrite onPrepare_eq in Hstart. injection Hstart as _ Hw1. rewrite <- Hw1.
    cbn [processes]. rewrite lookup_app_r by lia.
    rewrite Hpl, Nat.sub_diag. reflexivity. }
  split; [exact Hpend|]. split.
  { exact (armed_in r _ _ (armed_run (pre ++ [CallOnComplete]) w1 r t0 Hwf1 Harm) Hpend). }
  subst stopped. rewrite <- !run_app, <- !app_assoc, !Hrace. split.
  - rewrite (app_assoc pre), first_verdict_skip by exact Hpre'.
    rewrite first_verdict_skip by exact Hquiet.
    cbn [first_verdict verdict]. unfold startup_timeout.
    rewrite (proj2 (Z.leb_le _ _) Hnow). reflexivity.
  - rewrite (app_assoc pre), first_verdict_skip by exact Hpre'.
    rewrite first_verdict_skip by exact Hquiet.
    cbn [first_verdict verdict]. rewrite Nat.eqb_refl, Hm. reflexivity.
Qed.

Lemma stop_does_not_cancel_start_witness :
  let stopped := run (snd (onPrepare 0 init)) ([StdoutData 0 "booting"] ++ [CallOnComplete]) in
  tauriDriver stopped = None /\
  kills (child 0 stopped) = 1%nat /\
  outcome 0 stopped = Pending /\
  mkTimer (0 + 30000) (StartupTimeout 0) ∈ timers stopped /\
  outcome 0 (run stopped ([ProcessExit 0 143] ++ [TimersPhase 30000])) =
    Rejected (newError "tauri-driver startup timeout") /\
  outcome 0 (run stopped ([ProcessExit 0 143] ++ [StdoutData 0 "Listening on :4444"])) =
    Fulfilled.
Proof.
  apply (stop_does_not_cancel_start [] 0 0 (snd (onPrepare 0 init)) 0
           [StdoutData 0%nat "booting"] [ProcessExit 0 143] 30000 "Listening on :4444");
    [reflexivity | reflexivity | reflexivity | reflexivity | reflexivity | lia | reflexivity].
Defined.




(** The kills the children have received, and the child the handle is on. *)
Lemma kills_step (w : World) (a : Action) :
  wf w ->
  ((forall q, kills (child q w) <= 1) /\
   forall p, tauriDriver w = Some p ->
             S p = length (processes w) /\ kills (child p w) = 0)%nat ->
  ((forall q, kills (child q (step w a)) <= 1) /\
   forall p, tauriDriver (step w a) = Some p ->
             S p = length (processes (step w a)) /\ kills (child p (step w a)) = 0)%nat.
Proof.
  intros Hwf [Hk Hh]. destruct (is_hook_call a) eqn:Ha.
  - destruct a as [now| |p data|p data|p err|p ec|now]; try discriminate; cbn [step].
    + rewrite onPrepare_eq. cbn [snd]. unfold child. cbn [processes tauriDriver]. split.
      * intros q. destruct (decide (q < length (processes w))%nat) as [Hq|Hq].
        -- rewrite lookup_app_l by exact Hq. apply Hk.
        -- rewrite lookup_app_r by lia.
           destruct (q - length (processes w))%nat as [|[|n]]; cbn; lia.
      * intros p Hp. injection Hp as <-. rewrite length_app. cbn [length].
        split; [lia|]. rewrite lookup_app_r by lia. rewrite Nat.sub_diag. reflexivity.
    + rewrite onComplete_eq. destruct (tauriDriver w) as [p|] eqn:Hp.
      * split; [|discriminate]. intros q. unfold child. cbn [processes].
        destruct (Hh p eq_refl) as [Hlen Hz]. unfold child in Hz.
        rewrite list_lookup_alter. case_decide as Hpq; [subst q|apply Hk].
        destruct (processes w !! p) as [c|]; cbn in *; lia.
      * split; [exact Hk | intros p' Hp'; congruence].
  - destruct (event_keeps_children w a Hwf Ha) as [Hps Hd].
    unfold child in *. rewrite Hps, Hd. split; [exact Hk | exact Hh].
Qed.

Lemma kills_run (tr : list Action) (w : World) :
  wf w ->
  ((forall q, kills (child q w) <= 1) /\
   forall p, tauriDriver w = Some p ->
             S p = length (processes w) /\ kills (child p w) = 0)%nat ->
  ((forall q, kills (child q (run w tr)) <= 1) /\
   forall p, tauriDriver (run w tr) = Some p ->
             S p = length (processes (run w tr)) /\ kills (child p (run w tr)) = 0)%nat.
Proof.
  revert w. induction tr as [|a tr IH]; intros w Hwf Hinv; [exact Hinv|].
  apply (IH (step w a)); [apply wf_step, Hwf | apply kills_step; assumption].
Qed.

(** No child is ever sent more than one [kill()], and the child the
    handle is on has been sent none: the handle, when set, is on the child
    spawned last (lines 64 and 93-98). *)
Theorem at_most_one_kill_per_child (history : list Action) (q : pid) :
  let w := run init history in
  (kills (child q w) <= 1)%nat /\
  match tauriDriver w with
  | Some p => S p = length (processes w) /\ kills (child p w) = 0%nat
  | None => True
  end.
Proof.
  intros w.
  assert (Hinit : ((forall q, kills (child q init) <= 1) /\
                   forall p, tauriDriver init = Some p ->
                             S p = length (processes init) /\ kills (child p init) = 0)%nat).
  { split; [intros q'; unfold child; cbn [init processes]; rewrite lookup_nil; cbn; lia
           | discriminate]. }
  destruct (kills_run history init wf_init Hinit) as [Hk Hh]. fold w in Hk, Hh.
  split; [apply Hk|]. destruct (tauriDriver w) as [p|]; [apply Hh; reflexivity | exact I].
Qed.


